(** * kyaml/kio: pipelines of readers, filters and writers

    A shallow embedding of [kyaml/kio/kio.go] (the [Pipeline] type and its
    [Execute] method) and of the container filter of [kyaml/kio/filters],
    together with the properties their specification states. *)

From Stdlib Require Import String Ascii List Arith Bool Lia.
From stdpp Require Import base option list strings gmap.

Import ListNotations.
Open Scope string_scope.

(** ** Package [kio] *)

Module kio.

Section Kio.
(** [*yaml.RNode] values are pointers owned by the document model; the
    memory they point into, and whatever else a reader, filter or writer
    can touch (files, streams), is the [World]. A callee is given the
    elements of a slice and the world, and what it does depends on those
    alone. *)
Context {RNode World : Type}.

(** Go's [error] interface; the nil error is [None]. *)
Definition error := string.

(** [type Reader interface { Read() ([]*yaml.RNode, error) }] *)
Record Reader := { Read : World → (list RNode * option error) * World }.

(** A slice is handed to a callee with its backing array: the callee
    cannot change the length its caller holds, but it can store into the
    elements, [o[i] = x], and the caller sees these stores afterwards.
    [Stores] are the stores a call made, in the order it made them. A
    store at or past the length (made through [o[:cap(o)]]) is not seen by
    the caller, which is what [<[i:=x]>] does there. *)
Definition Stores := list (nat * RNode).

Definition store_all (sts : Stores) (o : list RNode) : list RNode :=
  foldl (fun acc st => <[st.1 := st.2]> acc) o sts.

(** [type Writer interface { Write([]*yaml.RNode) error }]: beside the
    error, what the call stored into the slice it was given. *)
Record Writer :=
  { Write : list RNode → World → (option error * Stores) * World }.

(** [type Filter interface { Filter([]*yaml.RNode) ([]*yaml.RNode, error) }];
    the method is [Filter_] since the interface has the name [Filter]. *)
Record Filter :=
  { Filter_ : list RNode → World → (list RNode * option error) * World }.

(** [type ResourceNodeSlice []*yaml.RNode] and its [Read] method. *)
Definition ResourceNodeSlice := list RNode.

Definition ResourceNodeSlice_Read (o : ResourceNodeSlice)
  : World → (list RNode * option error) * World :=
  fun w => ((o, None), w).

(** [var _ Reader = ResourceNodeSlice{}] *)
Definition ResourceNodeSlice_Reader (o : ResourceNodeSlice) : Reader :=
  {| Read := ResourceNodeSlice_Read o |}.

(** [type WriterFunc func([]*yaml.RNode) error] *)
Definition WriterFunc :=
  list RNode → World → (option error * Stores) * World.

Definition WriterFunc_Write (fn : WriterFunc) (o : list RNode) := fn o.

Definition WriterFunc_Writer (fn : WriterFunc) : Writer :=
  {| Write := WriterFunc_Write fn |}.

(** [type FilterFunc func([]*yaml.RNode) ([]*yaml.RNode, error)] *)
Definition FilterFunc :=
  list RNode → World → (list RNode * option error) * World.

Definition FilterFunc_Filter (fn : FilterFunc) (o : list RNode) := fn o.

Definition FilterFunc_Filter_ (fn : FilterFunc) : Filter :=
  {| Filter_ := FilterFunc_Filter fn |}.

(** [type Pipeline struct { Inputs []Reader; Filters []Filter; Outputs []Writer }].
    The three slices are those [Execute] finds when it starts: a callee
    that would store into them while [Execute] ranges over them is outside
    this model. *)
Record Pipeline := {
  Inputs : list Reader;
  Filters : list Filter;
  Outputs : list Writer
}.

(** *** Method calls, observed

    [Execute] does nothing but call the methods of the values it holds.
    Each call is recorded, with the position of the callee in its slice
    and the collection it receives, so that "is invoked" and "is called
    with" can be stated. *)
Inductive Call :=
| ReadCall (i : nat)
| FilterCall (i : nat) (arg : list RNode)
| WriteCall (i : nat) (arg : list RNode).

Record State := { world : World; calls : list Call }.

(** A computation that calls methods: it takes the state it starts in and
    gives its result and the state it ends in. *)
Definition M (A : Type) : Type := State → A * State.

Definition call_Read (idx : nat) (i : Reader)
  : M (list RNode * option error) :=
  fun s =>
    let '(r, w) := Read i (world s) in
    (r, {| world := w; calls := calls s ++ [ReadCall idx] |}).

Definition call_Filter (idx : nat) (op : Filter) (o : list RNode)
  : M (list RNode * option error) :=
  fun s =>
    let '(r, w) := Filter_ op o (world s) in
    (r, {| world := w; calls := calls s ++ [FilterCall idx o] |}).

(** The call of a writer gives its error and the elements of the slice
    as the call left them. *)
Definition call_Write (idx : nat) (o : Writer) (arg : list RNode)
  : M (option error * list RNode) :=
  fun s =>
    let '((err, sts), w) := Write o arg (world s) in
    ((err, store_all sts arg),
     {| world := w; calls := calls s ++ [WriteCall idx arg] |}).

(** A loop body either executes [return err] or falls through to the
    next iteration with the loop's variable. *)
Inductive Flow (A : Type) :=
| Return (err : option error)
| Next (a : A).
Global Arguments Return {A} err.
Global Arguments Next {A} a.

(** [for _, i := range p.Inputs { ... result = append(result, nodes...) }] *)
Fixpoint read_loop (inputs : list Reader) (idx : nat) (result : list RNode)
  : M (Flow (list RNode)) :=
  fun s =>
  match inputs with
  | [] => (Next result, s)
  | i :: rest =>
      let '((nodes, err), s) := call_Read idx i s in
      match err with
      | Some e => (Return (Some e), s)
      | None => read_loop rest (S idx) (result ++ nodes) s
      end
  end.

(** [for i := range p.Filters { op := p.Filters[i]; ... }] *)
Fixpoint filter_loop (filters : list Filter) (idx : nat)
    (result : list RNode) : M (Flow (list RNode)) :=
  fun s =>
  match filters with
  | [] => (Next result, s)
  | op :: rest =>
      let '((result, err), s) := call_Filter idx op result s in
      if Nat.eqb (length result) 0 || bool_decide (err ≠ None)
      then (Return err, s)
      else filter_loop rest (S idx) result s
  end.

(** [for _, o := range p.Outputs { if err := o.Write(result); ... }]:
    every writer is given the one slice [result], so each sees the
    elements as the writers before it left them. *)
Fixpoint write_loop (outputs : list Writer) (idx : nat)
    (result : list RNode) : M (Flow unit) :=
  fun s =>
  match outputs with
  | [] => (Next tt, s)
  | o :: rest =>
      let '((err, result), s) := call_Write idx o result s in
      match err with
      | Some e => (Return (Some e), s)
      | None => write_loop rest (S idx) result s
      end
  end.

(** [func (p Pipeline) Execute() error] *)
Definition Execute (p : Pipeline) : M (option error) :=
  fun s =>
  (* read from the inputs *)
  match read_loop (Inputs p) 0 [] s with
  | (Return err, s) => (err, s)
  | (Next result, s) =>
      if Nat.eqb (length result) 0 then
        (* no inputs to operate on *)
        (None, s)
      else
        (* apply operations *)
        match filter_loop (Filters p) 0 result s with
        | (Return err, s) => (err, s)
        | (Next result, s) =>
            (* write to the outputs *)
            match write_loop (Outputs p) 0 result s with
            | (Return err, s) => (err, s)
            | (Next _, s) => (None, s)
            end
        end
  end.

(** *** Runs of the three phases

    What the callees do is described apart from the loops that call them:
    [reads], [chain] and [writes] follow the callees one after the other
    while none of them makes [Execute] return. *)

(** Every reader, called in order from world [w], succeeds; [outs] are the
    results and [w'] is the world the last one leaves. *)
Inductive reads : list Reader → World → list (list RNode) → World → Prop :=
| reads_nil w : reads [] w [] w
| reads_cons r rs w nodes w1 outs w2 :
    Read r w = ((nodes, None), w1) →
    reads rs w1 outs w2 →
    reads (r :: rs) w (nodes :: outs) w2.

(** Every filter succeeds with a non-empty result, each one applied to the
    result of the one before, the first to [c]; [ins] are the collections
    the filters receive and [c'] is the last result. *)
Inductive chain
  : list Filter → list RNode → World → list (list RNode) → list RNode →
    World → Prop :=
| chain_nil c w : chain [] c w [] c w
| chain_cons op ops c w c1 w1 ins c2 w2 :
    Filter_ op c w = ((c1, None), w1) →
    c1 ≠ [] →
    chain ops c1 w1 ins c2 w2 →
    chain (op :: ops) c w (c :: ins) c2 w2.

(** Every writer succeeds, the first given the slice with elements [c]
    and each other one the slice as the writer before it left it; [args]
    are the elements the writers receive and [c'] are the elements the
    last one leaves. *)
Inductive writes
  : list Writer → list RNode → World → list (list RNode) → list RNode →
    World → Prop :=
| writes_nil c w : writes [] c w [] c w
| writes_cons o os c w sts w1 args c2 w2 :
    Write o c w = ((None, sts), w1) →
    writes os (store_all sts c) w1 args c2 w2 →
    writes (o :: os) c w (c :: args) c2 w2.

(** The calls of a phase, as they are recorded. *)
Definition read_calls (from n : nat) : list Call :=
  ReadCall <$> seq from n.

Definition filter_calls (from : nat) (ins : list (list RNode)) : list Call :=
  imap (fun i => FilterCall (from + i)) ins.

Definition write_calls (from : nat) (args : list (list RNode)) : list Call :=
  imap (fun i => WriteCall (from + i)) args.

Definition is_read (c : Call) : bool :=
  match c with ReadCall _ => true | _ => false end.

Definition is_write (c : Call) : bool :=
  match c with WriteCall _ _ => true | _ => false end.

Definition filter_index (c : Call) : option nat :=
  match c with FilterCall i _ => Some i | _ => None end.

(** How [Execute] ends once the write loop is over. *)
Definition after_writes (r : Flow unit * State) : option error * State :=
  match r with
  | (Return err, s) => (err, s)
  | (Next _, s) => (None, s)
  end.

End Kio.

Global Arguments Reader : clear implicits.
Global Arguments Writer : clear implicits.
Global Arguments Filter : clear implicits.
Global Arguments Pipeline : clear implicits.
Global Arguments Call : clear implicits.
Global Arguments State : clear implicits.

(** *** The returns of [Execute]

    [Execute] has five [return] statements. Each is described by what the
    callees did up to it: the error returned, the world left, and the calls
    made. *)

Inductive Kind := Reading | Filtering | Writing.

Section Outcomes.
Context {RNode World : Type}.
Local Open Scope list_scope.

(** The collection a call hands to its callee. *)
Definition call_arg (c : Call RNode) : option (list RNode) :=
  match c with
  | ReadCall _ => None
  | FilterCall _ arg => Some arg
  | WriteCall _ arg => Some arg
  end.

(** The value a call is made on: its slice and its position there. *)
Definition callee (c : Call RNode) : Kind * nat :=
  match c with
  | ReadCall i => (Reading, i)
  | FilterCall i _ => (Filtering, i)
  | WriteCall i _ => (Writing, i)
  end.

Inductive outcome (p : Pipeline RNode World) (w : World)
  : option error → World → list (Call RNode) → Prop :=
| read_failed pre r post outs w1 nodes e w2 :
    (* [return err] of the read loop *)
    Inputs p = pre ++ r :: post →
    reads pre w outs w1 →
    Read r w1 = ((nodes, Some e), w2) →
    outcome p w (Some e) w2 (read_calls 0 (S (length pre)))
| nothing_read outs w1 :
    (* [return nil]: no inputs to operate on *)
    reads (Inputs p) w outs w1 →
    concat outs = [] →
    outcome p w None w1 (read_calls 0 (length (Inputs p)))
| filter_stopped outs w1 pre op post ins c w2 r err w3 :
    (* [return err] of the filter loop *)
    reads (Inputs p) w outs w1 →
    concat outs ≠ [] →
    Filters p = pre ++ op :: post →
    chain pre (concat outs) w1 ins c w2 →
    Filter_ op c w2 = ((r, err), w3) →
    r = [] ∨ err ≠ None →
    outcome p w err w3
      (read_calls 0 (length (Inputs p)) ++ filter_calls 0 (ins ++ [c]))
| write_failed outs w1 ins c w2 pre o post args c3 w3 e sts w4 :
    (* [return err] of the write loop *)
    reads (Inputs p) w outs w1 →
    concat outs ≠ [] →
    chain (Filters p) (concat outs) w1 ins c w2 →
    Outputs p = pre ++ o :: post →
    writes pre c w2 args c3 w3 →
    Write o c3 w3 = ((Some e, sts), w4) →
    outcome p w (Some e) w4
      (read_calls 0 (length (Inputs p)) ++ filter_calls 0 ins
         ++ write_calls 0 (args ++ [c3]))
| completed outs w1 ins c w2 args c3 w3 :
    (* the last [return nil] *)
    reads (Inputs p) w outs w1 →
    concat outs ≠ [] →
    chain (Filters p) (concat outs) w1 ins c w2 →
    writes (Outputs p) c w2 args c3 w3 →
    outcome p w None w3
      (read_calls 0 (length (Inputs p)) ++ filter_calls 0 ins
         ++ write_calls 0 args).

(** What a caller of [Execute] can see of a run: what is returned and the
    world it leaves; the record of calls is left out. *)
Definition observed {A : Type} (r : A * State RNode World) : A * World :=
  (r.1, world r.2).

(** How [Execute] ends once the filter loop is over. *)
Definition after_filters (outputs : list (Writer RNode World))
    (r : Flow (list RNode) * State RNode World)
  : option error * State RNode World :=
  match r with
  | (Return err, s) => (err, s)
  | (Next result, s) => after_writes (write_loop outputs 0 result s)
  end.

(** [FilterFunc(func(o []*yaml.RNode) ([]*yaml.RNode, error) { return o, nil })],
    the filter that hands its input back. *)
Definition pass_through : Filter RNode World :=
  FilterFunc_Filter_ (fun o w => ((o, None), w)).

End Outcomes.

End kio.

(** ** Package [kio/filters]: the container filter

    Only the tests of this package are at hand; the functions they exercise
    are modelled from the specification, and the tests' expectations are
    checked against the model. *)

Module filters.

(** *** Documents and references *)

(** A document: its type tag, the annotation map of its metadata section (a
    string-to-string map), and the rest of its content as fields. An absent
    [apiVersion] or [kind] is the empty string. *)
Record Document := {
  apiVersion : string;
  kind : string;
  annotations : gmap string string;
  fields : list (string * string)
}.

(** Documents are referenced, never copied by value. *)
Abbreviation Ptr := nat.

Definition GetAnnotation (key : string) (d : Document) : option string :=
  annotations d !! key.

(** *** Container-reference resolver *)

Definition ContainerAnnotation : string := "kyaml.kustomize.dev/container".

(** The portion of [s] before the first [sep]; all of [s] when [sep] does
    not occur ([strings.Split(s, sep)[0]], as the tests compute the name of
    an environment entry). *)
Fixpoint before_first (sep : ascii) (s : string) : string :=
  match s with
  | EmptyString => EmptyString
  | String c rest =>
      if Ascii.eqb c sep then EmptyString else String c (before_first sep rest)
  end.

Fixpoint contains (ch : ascii) (s : string) : bool :=
  match s with
  | EmptyString => false
  | String c rest => Ascii.eqb c ch || contains ch rest
  end.

(** Modelled from the spec: [GetContainerName] (the resolver of section 4.1),
    which the tests call and whose source file is not at hand. The override
    annotation wins; otherwise the type-version string is an image reference
    when its portion before the first slash has a dot; otherwise empty. *)
Definition GetContainerName (n : Document) : string :=
  match GetAnnotation ContainerAnnotation n with
  | Some container => container
  | None =>
      if contains "." (before_first "/" (apiVersion n))
      then apiVersion n
      else ""
  end.

(** *** Invocation of the sandboxed function *)

(** The configuration a [ContainerFilter] holds: image reference,
    function-config document and the override of the invocation arguments
    ([nil] when there is none). *)
Record ContainerFilter := {
  Image : string;
  Config : option Ptr;
  args : list string
}.

(** What [exec.Cmd] keeps of a command: [Args] (with the program's name at
    position 0) and [Env], entries of the form [NAME=value]. *)
Record Cmd := {
  Args : list string;
  Env : list string
}.

(** The fixed, security-motivated profile. *)
Definition profile : list string :=
  [ "run"; "--rm";
    "-i"; "-a"; "STDIN"; "-a"; "STDOUT"; "-a"; "STDERR";
    "--network"; "none";
    "--user"; "nobody";
    "--security-opt=no-new-privileges" ].

(** The name of a host environment entry, as the tests take it:
    [strings.Split(e, "=")[0]]. *)
Definition env_name (pair : string) : string := before_first "=" pair.

(** Modelled from the spec: the invocation build of section 4.3 ([getArgs]),
    not at hand. [environ] is [os.Environ()] at launch time; the runtime is
    [docker], as the tests expect at position 0. *)
Definition getArgs (c : ContainerFilter) (environ : list string)
  : list string :=
  "docker" :: profile
    ++ flat_map (fun pair => ["-e"; env_name pair]) environ
    ++ [Image c]
    ++ args c.

(** Modelled from the spec: [getCommand], not at hand: the command of
    [getArgs], run with the host environment. *)
Definition getCommand (c : ContainerFilter) (environ : list string) : Cmd :=
  {| Args := getArgs c environ; Env := environ |}.

(** *** What the specification says of the resolver *)

Definition chars (s : string) : list ascii := list_ascii_of_string s.

(** [p] is the portion of [s] before the first [sep]: [sep] does not occur
    in [p], and [s] is [p], or [p] followed by [sep] and a rest. *)
Definition portion_before (sep : ascii) (s p : string) : Prop :=
  (sep ∉ chars p) ∧ (s = p ∨ ∃ rest, s = p +:+ String sep rest).

(** *** The documents of the tests *)

Definition mything (api : string) (ann : gmap string string) : Document :=
  {| apiVersion := api; kind := "MyThing"; annotations := ann; fields := [] |}.

End filters.

(** ** Sample pipelines

    Nodes are numbers; the world is the disk: the collections written so
    far, the latest first. *)

Module samples.
Import kio.

Abbreviation Disk := (list (list nat)).

Definition two_nodes : Reader nat Disk := ResourceNodeSlice_Reader [1; 2].
Definition one_node : Reader nat Disk := ResourceNodeSlice_Reader [3].
Definition no_node : Reader nat Disk := ResourceNodeSlice_Reader [].

Definition broken_reader : Reader nat Disk :=
  {| Read := fun w => (([], Some "read failed"), w) |}.

Definition reverse : Filter nat Disk :=
  FilterFunc_Filter_ (fun o w => ((rev o, None), w)).

Definition behead : Filter nat Disk :=
  FilterFunc_Filter_ (fun o w => ((tail o, None), w)).

Definition drop_all : Filter nat Disk :=
  FilterFunc_Filter_ (fun o w => (([], None), w)).

Definition broken_filter : Filter nat Disk :=
  FilterFunc_Filter_ (fun o w => ((o, Some "filter failed"), w)).

Definition to_disk : Writer nat Disk :=
  WriterFunc_Writer (fun o w => ((None, []), o :: w)).

Definition broken_writer : Writer nat Disk :=
  WriterFunc_Writer (fun o w => ((Some "write failed", []), w)).

(** A writer that puts the nodes on disk and then reverses the slice it
    was given in place, as
    [for i, j := 0, len(o)-1; i < j; i, j = i+1, j-1 { o[i], o[j] = o[j], o[i] }]
    does: its stores leave at every position the node of the mirrored
    position. *)
Definition flip_to_disk : Writer nat Disk :=
  WriterFunc_Writer
    (fun o w => ((None, imap (fun i x => (i, x)) (rev o)), o :: w)).

Definition start : State nat Disk := {| world := []; calls := [] |}.

Definition reads_only : Pipeline nat Disk :=
  {| Inputs := [two_nodes; one_node]; Filters := []; Outputs := [] |}.

Definition read_fails : Pipeline nat Disk :=
  {| Inputs := [two_nodes; broken_reader; one_node];
     Filters := [reverse];
     Outputs := [to_disk] |}.

Definition nothing_to_read : Pipeline nat Disk :=
  {| Inputs := [no_node; no_node];
     Filters := [reverse];
     Outputs := [to_disk] |}.

Definition two_filters : Pipeline nat Disk :=
  {| Inputs := [two_nodes; one_node];
     Filters := [reverse; behead];
     Outputs := [to_disk] |}.

Definition emptied : Pipeline nat Disk :=
  {| Inputs := [two_nodes];
     Filters := [reverse; drop_all; reverse];
     Outputs := [to_disk] |}.

Definition filter_fails : Pipeline nat Disk :=
  {| Inputs := [two_nodes];
     Filters := [broken_filter; reverse];
     Outputs := [to_disk] |}.

Definition write_fails : Pipeline nat Disk :=
  {| Inputs := [two_nodes];
     Filters := [reverse];
     Outputs := [to_disk; broken_writer; to_disk] |}.

Definition two_writes : Pipeline nat Disk :=
  {| Inputs := [two_nodes];
     Filters := [reverse];
     Outputs := [to_disk; to_disk] |}.

Definition flipped : Pipeline nat Disk :=
  {| Inputs := [two_nodes];
     Filters := [reverse];
     Outputs := [flip_to_disk; to_disk] |}.

Definition copy_all : Pipeline nat Disk :=
  {| Inputs := [two_nodes; one_node];
     Filters := [];
     Outputs := [to_disk; to_disk] |}.

(** [two_filters] with a filter that changes nothing put in between. *)
Definition with_pass_through : Pipeline nat Disk :=
  {| Inputs := [two_nodes; one_node];
     Filters := [reverse; pass_through; behead];
     Outputs := [to_disk] |}.


End samples.

(** * Properties of [Pipeline.Execute] *)

Section PipelineProperties.
Import kio.
Local Open Scope list_scope.
Context {RNode World : Type}.
Implicit Types (p : Pipeline RNode World) (s : State RNode World).
Implicit Types (c : list RNode) (w : World).

Local Abbreviation St w cs := ({| world := w; calls := cs |} : State RNode World).

(** **** The loops, along a run *)

Lemma read_loop_reads rs : ∀ idx acc w cs outs w',
  reads rs w outs w' →
  ∀ rest,
    read_loop (rs ++ rest) idx acc (St w cs) =
    read_loop rest (idx + length rs) (acc ++ concat outs)
      (St w' (cs ++ read_calls idx (length rs))).
Proof.
  induction rs as [|r rs IH]; intros idx acc w cs outs w' Hr rest.
  - inversion Hr; subst. simpl.
    by rewrite Nat.add_0_r, !app_nil_r.
  - inversion Hr as [|? ? ? nodes w1 outs' ? Hread Hrest]; subst.
    simpl. unfold call_Read at 1. simpl. rewrite Hread.
    rewrite (IH (S idx) (acc ++ nodes) w1 _ outs' w' Hrest rest).
    f_equal; [lia | by rewrite app_assoc |].
    f_equal. unfold read_calls. simpl. by rewrite <- app_assoc.
Qed.

Lemma filter_loop_chain ops : ∀ idx c w cs ins c' w',
  chain ops c w ins c' w' →
  ∀ rest,
    filter_loop (ops ++ rest) idx c (St w cs) =
    filter_loop rest (idx + length ops) c'
      (St w' (cs ++ filter_calls idx ins)).
Proof.
  induction ops as [|op ops IH]; intros idx c w cs ins c' w' Hc rest.
  - inversion Hc; subst. simpl.
    by rewrite Nat.add_0_r, app_nil_r.
  - inversion Hc as [|? ? ? ? c1 w1 ins' ? ? Hf Hne Hrest]; subst.
    simpl. unfold call_Filter at 1. simpl. rewrite Hf.
    destruct c1 as [|x c1]; [done|]. simpl.
    rewrite (IH (S idx) (x :: c1) w1 _ ins' c' w' Hrest rest).
    f_equal; [lia |]. f_equal. rewrite <- app_assoc. f_equal.
    unfold filter_calls. simpl. rewrite Nat.add_0_r. f_equal.
    apply imap_ext. intros i y _. simpl. f_equal. lia.
Qed.

Lemma write_loop_writes os : ∀ idx c w cs args c' w',
  writes os c w args c' w' →
  ∀ rest,
    write_loop (os ++ rest) idx c (St w cs) =
    write_loop rest (idx + length os) c'
      (St w' (cs ++ write_calls idx args)).
Proof.
  induction os as [|o os IH]; intros idx c w cs args c' w' Hw rest.
  - inversion Hw; subst. simpl.
    by rewrite Nat.add_0_r, app_nil_r.
  - inversion Hw as [|? ? ? ? sts w1 args' ? ? Hwr Hrest]; subst.
    simpl. unfold call_Write at 1. simpl. rewrite Hwr.
    rewrite (IH (S idx) _ w1 _ args' c' w' Hrest rest).
    f_equal; [lia |]. f_equal. rewrite <- app_assoc. f_equal.
    unfold write_calls. simpl. rewrite Nat.add_0_r. f_equal.
    apply imap_ext. intros i y _. simpl. f_equal. lia.
Qed.

(** Whatever the callees do, a loop only adds calls to the record. *)
Lemma filter_loop_calls ops : ∀ idx c s,
  ∃ tail, calls (filter_loop ops idx c s).2 = calls s ++ tail.
Proof.
  induction ops as [|op ops IH]; intros idx c s; simpl.
  - exists []. by rewrite app_nil_r.
  - unfold call_Filter.
    destruct (Filter_ op c (world s)) as [[r err] w].
    destruct (_ || _).
    + simpl. eauto.
    + destruct (IH (S idx) r (St w (calls s ++ [FilterCall idx c])))
        as [tail Ht].
      rewrite Ht. simpl. rewrite <- app_assoc. eauto.
Qed.

Lemma write_loop_calls os : ∀ idx c s,
  ∃ tail, calls (write_loop os idx c s).2 = calls s ++ tail.
Proof.
  induction os as [|o os IH]; intros idx c s; simpl.
  - exists []. by rewrite app_nil_r.
  - unfold call_Write.
    destruct (Write o c (world s)) as [[[e|] sts] w].
    + simpl. eauto.
    + destruct (IH (S idx) (store_all sts c)
                  (St w (calls s ++ [WriteCall idx c])))
        as [tail Ht].
      rewrite Ht. simpl. rewrite <- app_assoc. eauto.
Qed.

Lemma length_eqb_nonempty c : c ≠ [] → Nat.eqb (length c) 0 = false.
Proof. by destruct c. Qed.

(** [Execute] once every input is read, with a non-empty collection. *)
Lemma Execute_after_reads p s outs w1 :
  reads (Inputs p) (world s) outs w1 →
  concat outs ≠ [] →
  Execute p s =
  match
    filter_loop (Filters p) 0 (concat outs)
      (St w1 (calls s ++ read_calls 0 (length (Inputs p))))
  with
  | (Return err, s) => (err, s)
  | (Next result, s) => after_writes (write_loop (Outputs p) 0 result s)
  end.
Proof.
  intros Hr Hne. unfold Execute.
  destruct s as [w cs]; simpl in *.
  pose proof (read_loop_reads _ 0 [] w cs outs w1 Hr []) as E.
  rewrite app_nil_r in E. rewrite E. simpl.
  rewrite length_eqb_nonempty by done.
  destruct (filter_loop _ _ _ _) as [[err|result] s2]; [done|].
  unfold after_writes. by destruct (write_loop _ _ _ _) as [[?|?] ?].
Qed.

(** Along a chain every filter receives what the filter before it
    returned: the result of filter [k] is the input of filter [k + 1], or
    the final collection when [k] is the last one. *)
Lemma chain_links ops : ∀ c w ins c' w',
  chain ops c w ins c' w' →
  length ins = length ops
  ∧ (∀ a, ins !! 0 = Some a → a = c)
  ∧ (∀ k op a, ops !! k = Some op → ins !! k = Some a →
       ∃ wk wk', Filter_ op a wk = ((default c' (ins !! S k), None), wk')
                 ∧ default c' (ins !! S k) ≠ []).
Proof.
  induction ops as [|op ops IH]; intros c w ins c' w' Hc.
  - inversion Hc; subst. repeat split; by intros.
  - inversion Hc as [|? ? ? ? c1 w1 ins' ? ? Hf Hne Hrest]; subst.
    destruct (IH _ _ _ _ _ Hrest) as (Hlen & Hhd & Hlk).
    repeat split.
    + simpl. by rewrite Hlen.
    + by intros a [= <-].
    + intros [|k] op' a Hop Ha; simpl in *.
      * injection Hop as <-. injection Ha as <-.
        exists w, w1.
        destruct ins' as [|a' ins']; simpl.
        -- by inversion Hrest; subst.
        -- by rewrite (Hhd a' eq_refl).
      * eauto.
Qed.

Lemma read_calls_are_reads from n (x : Call RNode) :
  x ∈ read_calls from n → is_read x = true.
Proof.
  unfold read_calls. rewrite list_elem_of_fmap. by intros (i & -> & _).
Qed.

Lemma filter_calls_index from (ins : list (list RNode)) x :
  x ∈ filter_calls from ins →
  ∃ k a, x = FilterCall (from + k) a ∧ ins !! k = Some a.
Proof.
  unfold filter_calls. rewrite list_elem_of_lookup.
  intros [k Hk]. rewrite list_lookup_imap in Hk.
  destruct (ins !! k) as [a|] eqn:E; [|done].
  injection Hk as <-. eauto.
Qed.

(** C10. A [ResourceNodeSlice] used as a reader gives back exactly itself,
    the same elements in the same order, with a nil error, and touches
    nothing: it is the identity input source, and it never fails. *)
Theorem ResourceNodeSlice_Read_identity (o : ResourceNodeSlice) (w : World) :
  Read (ResourceNodeSlice_Reader o) w = ((o, None), w)
  ∧ ResourceNodeSlice_Read o w = ((o, None), w)
  ∧ ∀ s : State RNode World,
      read_loop [ResourceNodeSlice_Reader o] 0 [] s =
      (Next o, St (world s) (calls s ++ [ReadCall 0])).
Proof. by repeat split. Qed.

(** C9. Read phase of [Execute]. The inputs are read in source order and
    their results are concatenated in that order; when every input is
    read, that collection is what the first filter is called with. When an
    input fails after the inputs before it were read, [Execute] returns
    that error, and the calls made are the reads up to the failing one: no
    later input, no filter and no writer is invoked. *)
Theorem Execute_read_phase p s pre post outs w1 :
  Inputs p = pre ++ post →
  reads pre (world s) outs w1 →
  (post = [] →
     read_loop (Inputs p) 0 [] s =
       (Next (concat outs),
        St w1 (calls s ++ read_calls 0 (length (Inputs p))))
     ∧ (concat outs ≠ [] → ∀ op ops, Filters p = op :: ops →
          ∃ tail,
            calls (Execute p s).2 =
            calls s ++ read_calls 0 (length (Inputs p))
              ++ FilterCall 0 (concat outs) :: tail))
  ∧ (∀ r post' nodes e w2,
       post = r :: post' →
       Read r w1 = ((nodes, Some e), w2) →
       Execute p s =
         (Some e, St w2 (calls s ++ read_calls 0 (S (length pre))))).
Proof.
  intros Hin Hr. destruct s as [w cs]; simpl in *. split.
  - intros ->. rewrite app_nil_r in Hin. subst pre.
    pose proof (read_loop_reads _ 0 [] w cs outs w1 Hr []) as E.
    rewrite app_nil_r in E. simpl in E. split; [done|].
    intros Hne op ops Hops.
    rewrite (Execute_after_reads p (St w cs) outs w1 Hr Hne). simpl.
    rewrite Hops. simpl. unfold call_Filter at 1. simpl.
    destruct (Filter_ op (concat outs) w1) as [[r err] w2].
    destruct (_ || _).
    + exists []. simpl. by rewrite <- app_assoc.
    + match goal with |- context [filter_loop ops 1 r ?s0] =>
        destruct (filter_loop_calls ops 1 r s0) as [t1 Ht1];
        destruct (filter_loop ops 1 r s0) as [[err'|res] s2]
      end; simpl in *.
      * exists t1. rewrite Ht1. by rewrite <- !app_assoc.
      * destruct (write_loop_calls (Outputs p) 0 res s2) as [t2 Ht2].
        unfold after_writes.
        destruct (write_loop (Outputs p) 0 res s2) as [[?|?] s3];
          simpl in *; exists (t1 ++ t2); rewrite Ht2, Ht1;
          by rewrite <- !app_assoc.
  - intros r post' nodes e w2 -> Hread. unfold Execute. rewrite Hin.
    rewrite (read_loop_reads _ 0 [] w cs outs w1 Hr). simpl.
    unfold call_Read at 1. simpl. rewrite Hread. simpl.
    do 2 f_equal. rewrite <- app_assoc. f_equal.
    unfold read_calls. by rewrite seq_S, fmap_app.
Qed.

(** C6. When the read phase yields an empty collection, [Execute] returns
    nil and, beside the reads, makes no call: no filter and no writer is
    invoked. *)
Theorem Execute_empty_input p s outs w1 :
  reads (Inputs p) (world s) outs w1 →
  concat outs = [] →
  Execute p s =
    (None, St w1 (calls s ++ read_calls 0 (length (Inputs p))))
  ∧ ∀ x : Call RNode,
      x ∈ read_calls 0 (length (Inputs p)) → is_read x = true.
Proof.
  intros Hr He. split; [|apply read_calls_are_reads].
  destruct s as [w cs]; simpl in *. unfold Execute.
  pose proof (read_loop_reads _ 0 [] w cs outs w1 Hr []) as E.
  rewrite app_nil_r in E. rewrite E. simpl. by rewrite He.
Qed.

(** [Execute] once every filter has run, none failing or emptying the
    collection. *)
Lemma Execute_after_filters p s outs w1 ins cf w2 :
  reads (Inputs p) (world s) outs w1 →
  concat outs ≠ [] →
  chain (Filters p) (concat outs) w1 ins cf w2 →
  let s1 := St w1 (calls s ++ read_calls 0 (length (Inputs p))) in
  let s2 := St w2 (calls s1 ++ filter_calls 0 ins) in
  filter_loop (Filters p) 0 (concat outs) s1 = (Next cf, s2)
  ∧ Execute p s = after_writes (write_loop (Outputs p) 0 cf s2).
Proof.
  intros Hr Hne Hc s1 s2.
  assert (Hloop : filter_loop (Filters p) 0 (concat outs) s1 = (Next cf, s2)).
  { pose proof (filter_loop_chain _ 0 _ _ (calls s1) _ _ _ Hc []) as E.
    by rewrite app_nil_r in E. }
  split; [done|].
  rewrite (Execute_after_reads p s outs w1 Hr Hne). fold s1.
  by rewrite Hloop.
Qed.


(** C5. A filter that returns an error, or an empty collection, stops
    [Execute] at once: it returns exactly that call's error, nil when the
    collection was emptied without error, and the calls made are the reads
    and the filter calls up to that one: no later filter and no writer is
    invoked. *)
Theorem Execute_filter_stops p s outs w1 pre op post ins c w2 r err w3 :
  reads (Inputs p) (world s) outs w1 →
  concat outs ≠ [] →
  Filters p = pre ++ op :: post →
  chain pre (concat outs) w1 ins c w2 →
  Filter_ op c w2 = ((r, err), w3) →
  r = [] ∨ err ≠ None →
  let made :=
    read_calls 0 (length (Inputs p)) ++ filter_calls 0 (ins ++ [c]) in
  Execute p s = (err, St w3 (calls s ++ made))
  ∧ (∀ x, x ∈ made → is_write x = false)
  ∧ (∀ x j, x ∈ made → filter_index x = Some j → (j ≤ length pre)%nat).
Proof.
  intros Hr Hne Hfs Hc Hop Hstop made.
  destruct (chain_links _ _ _ _ _ _ Hc) as (Hlen & _ & _).
  repeat split.
  - rewrite (Execute_after_reads p s outs w1 Hr Hne), Hfs.
    rewrite (filter_loop_chain _ 0 _ _ _ _ _ _ Hc). simpl.
    unfold call_Filter at 1. simpl. rewrite Hop.
    assert (Nat.eqb (length r) 0 || bool_decide (err ≠ None) = true) as ->.
    { destruct Hstop as [-> | He]; [done|].
      rewrite (bool_decide_eq_true_2 _ He). apply orb_true_r. }
    do 2 f_equal. unfold made, filter_calls.
    rewrite imap_app. simpl. rewrite <- !app_assoc.
    by rewrite Nat.add_0_r, Hlen.
  - intros x Hx. unfold made in Hx. apply elem_of_app in Hx as [Hx | Hx].
    + apply read_calls_are_reads in Hx. by destruct x.
    + apply filter_calls_index in Hx as (k & a & -> & _). done.
  - intros x j Hx Hj. unfold made in Hx.
    apply elem_of_app in Hx as [Hx | Hx].
    + apply read_calls_are_reads in Hx. by destruct x.
    + apply filter_calls_index in Hx as (k & a & -> & Hk).
      simpl in Hj. injection Hj as <-.
      apply lookup_lt_Some in Hk. rewrite length_app in Hk. simpl in Hk.
      lia.
Qed.

(** Stores into a slice leave its length as it is. *)
Lemma length_store_all (sts : Stores) : ∀ o : list RNode,
  length (store_all sts o) = length o.
Proof.
  unfold store_all.
  induction sts as [|st sts IH]; intros o; simpl; [done|].
  by rewrite IH, length_insert.
Qed.

(** Along the writers the slice is handed on: the first writer receives
    [c], each other one what the writer before it left, always of the
    length of [c], and [c] itself as long as no writer stores into it. *)
Lemma writes_links os : ∀ c w args c' w',
  writes os c w args c' w' →
  length args = length os
  ∧ (args ++ [c']) !! 0 = Some c
  ∧ (∀ k a, (args ++ [c']) !! k = Some a → length a = length c)
  ∧ (∀ k o a, os !! k = Some o → args !! k = Some a →
       ∃ wk sts wk', Write o a wk = ((None, sts), wk')
                     ∧ (args ++ [c']) !! S k = Some (store_all sts a))
  ∧ ((∀ o a w0, o ∈ os → store_all (Write o a w0).1.2 a = a) →
       ∀ k a, (args ++ [c']) !! k = Some a → a = c).
Proof.
  induction os as [|o os IH]; intros c w args c' w' Hw.
  - inversion Hw; subst. repeat split; try done.
    + intros [|k] a; simpl; [by intros [= <-] | done].
    + intros _ [|k] a; simpl; [by intros [= <-] | done].
  - inversion Hw as [|? ? ? ? sts w1 args' ? ? Hwr Hrest]; subst.
    destruct (IH _ _ _ _ _ Hrest) as (Hlen & Hhd & Hsz & Hlk & Hsame).
    repeat split.
    + simpl. by rewrite Hlen.
    + intros [|k] a; simpl; [by intros [= <-]|].
      intros Ha. rewrite (Hsz k a Ha). apply length_store_all.
    + intros [|k] o' a Ho Ha; simpl in *.
      * injection Ho as <-. injection Ha as <-. by exists w, sts, w1.
      * eauto.
    + intros Hkeep [|k] a; simpl; [by intros [= <-]|].
      intros Ha.
      assert (store_all sts c = c) as E.
      { specialize (Hkeep o c w (list_elem_of_here _ _)).
        by rewrite Hwr in Hkeep. }
      rewrite E in Hsame. apply (Hsame (fun o' a' w0 Ho' =>
        Hkeep o' a' w0 (list_elem_of_further _ _ _ Ho')) k a Ha).
Qed.

(** C7. Write phase of [Execute]. The writers are called in declaration
    order, each with the one slice that holds the final collection: the
    first receives the final collection, and each later one receives the
    slice as the writer before it left it, which has the same length and,
    when no writer before it stored into the slice, the same elements.
    The first error of a writer is returned and no later writer is
    called; the world is then the one left by the writers that ran, whose
    effects stay. When every writer succeeds, [Execute] returns nil. *)
Theorem Execute_write_phase p s outs w1 ins cf w2 pre post args c3 w3 :
  reads (Inputs p) (world s) outs w1 →
  concat outs ≠ [] →
  chain (Filters p) (concat outs) w1 ins cf w2 →
  Outputs p = pre ++ post →
  writes pre cf w2 args c3 w3 →
  let before :=
    calls s ++ read_calls 0 (length (Inputs p)) ++ filter_calls 0 ins in
  (post = [] →
     Execute p s = (None, St w3 (before ++ write_calls 0 args)))
  ∧ (∀ o post' e sts w4,
       post = o :: post' →
       Write o c3 w3 = ((Some e, sts), w4) →
       Execute p s =
         (Some e, St w4 (before ++ write_calls 0 (args ++ [c3]))))
  ∧ length args = length pre
  ∧ (args ++ [c3]) !! 0 = Some cf
  ∧ (∀ k a, (args ++ [c3]) !! k = Some a → length a = length cf)
  ∧ (∀ k o a, pre !! k = Some o → args !! k = Some a →
       ∃ wk sts wk', Write o a wk = ((None, sts), wk')
                     ∧ (args ++ [c3]) !! S k = Some (store_all sts a))
  ∧ ((∀ o a w0, o ∈ pre → store_all (Write o a w0).1.2 a = a) →
       ∀ k a, (args ++ [c3]) !! k = Some a → a = cf).
Proof.
  intros Hr Hne Hc Hout Hw before.
  destruct (Execute_after_filters p s outs w1 ins cf w2 Hr Hne Hc)
    as (_ & Hex).
  destruct (writes_links _ _ _ _ _ _ Hw) as (Hlen & Hhd & Hsz & Hlk & Hsame).
  split; [|split]; [| |done];
    rewrite Hex, Hout; simpl;
    rewrite (write_loop_writes _ 0 _ _ _ _ _ _ Hw); simpl; unfold before.
  - intros ->. simpl. by rewrite <- !app_assoc.
  - intros o post' e sts w4 -> Hwr. simpl.
    unfold call_Write at 1. simpl. rewrite Hwr. simpl.
    do 2 f_equal. rewrite <- !app_assoc. do 3 f_equal.
    unfold write_calls. rewrite imap_app. simpl.
    by rewrite Nat.add_0_r, Hlen.
Qed.

End PipelineProperties.

(** ** The pipeline properties on sample pipelines *)

Section PipelineWitnesses.
Import kio samples.
Local Open Scope list_scope.

Lemma Execute_read_phase_witness :
  read_loop (Inputs reads_only) 0 [] start =
    (Next [1; 2; 3], {| world := []; calls := [ReadCall 0; ReadCall 1] |})
  ∧ Execute read_fails start =
    (Some "read failed",
     {| world := []; calls := [ReadCall 0; ReadCall 1] |}).
Proof.
  split.
  - refine (proj1 (proj1 (Execute_read_phase reads_only
      start [two_nodes; one_node] [] [[1; 2]; [3]] [] eq_refl _) eq_refl)).
    repeat econstructor.
  - refine (proj2 (Execute_read_phase read_fails start
      [two_nodes] [broken_reader; one_node] [[1; 2]] [] eq_refl _)
      broken_reader [one_node] [] "read failed" [] eq_refl eq_refl).
    repeat econstructor.
Defined.

Lemma Execute_empty_input_witness :
  Execute nothing_to_read start =
  (None, {| world := []; calls := [ReadCall 0; ReadCall 1] |}).
Proof.
  refine (proj1 (Execute_empty_input nothing_to_read start [[]; []] []
    _ eq_refl)).
  repeat econstructor.
Defined.


Lemma Execute_filter_stops_witness :
  Execute emptied start =
  (None,
   {| world := [];
      calls := [ReadCall 0; FilterCall 0 [1; 2]; FilterCall 1 [2; 1]] |})
  ∧ Execute filter_fails start =
    (Some "filter failed",
     {| world := []; calls := [ReadCall 0; FilterCall 0 [1; 2]] |}).
Proof.
  split.
  - refine (proj1 (Execute_filter_stops emptied start [[1; 2]] []
      [reverse] drop_all [reverse] [[1; 2]] [2; 1] [] [] None []
      _ _ eq_refl _ eq_refl (or_introl eq_refl))).
    + repeat econstructor.
    + discriminate.
    + repeat econstructor; discriminate.
  - refine (proj1 (Execute_filter_stops filter_fails start [[1; 2]] []
      [] broken_filter [reverse] [] [1; 2] [] [1; 2] (Some "filter failed") []
      _ _ eq_refl _ eq_refl (or_intror _))).
    + repeat econstructor.
    + discriminate.
    + repeat econstructor.
    + discriminate.
Defined.

Lemma Execute_write_phase_witness :
  Execute write_fails start =
  (Some "write failed",
   {| world := [[2; 1]];
      calls := [ReadCall 0; FilterCall 0 [1; 2];
                WriteCall 0 [2; 1]; WriteCall 1 [2; 1]] |})
  ∧ Execute flipped start =
    (None,
     {| world := [[1; 2]; [2; 1]];
        calls := [ReadCall 0; FilterCall 0 [1; 2];
                  WriteCall 0 [2; 1]; WriteCall 1 [1; 2]] |})
  ∧ (∀ k a, [[2; 1]; [2; 1]; [2; 1]] !! k = Some a → a = [2; 1]).
Proof.
  split; [|split].
  - refine (proj1 (proj2 (Execute_write_phase write_fails start [[1; 2]] []
      [[1; 2]] [2; 1] [] [to_disk] [broken_writer; to_disk]
      [[2; 1]] [2; 1] [[2; 1]] _ _ _ eq_refl _))
      broken_writer [to_disk] "write failed" [] [[2; 1]] eq_refl eq_refl).
    + repeat econstructor.
    + discriminate.
    + repeat econstructor; discriminate.
    + repeat econstructor.
  - refine (proj1 (Execute_write_phase flipped start [[1; 2]] []
      [[1; 2]] [2; 1] [] [flip_to_disk; to_disk] []
      [[2; 1]; [1; 2]] [1; 2] [[1; 2]; [2; 1]] _ _ _ eq_refl _) eq_refl).
    + repeat econstructor.
    + discriminate.
    + repeat econstructor; discriminate.
    + repeat econstructor.
  - refine (proj2 (proj2 (proj2 (proj2 (proj2 (proj2
      (Execute_write_phase two_writes start [[1; 2]] []
         [[1; 2]] [2; 1] [] [to_disk; to_disk] []
         [[2; 1]; [2; 1]] [2; 1] [[2; 1]; [2; 1]] _ _ _ eq_refl _)))))) _).
    + repeat econstructor.
    + discriminate.
    + repeat econstructor; discriminate.
    + repeat econstructor.
    + intros o a w0 Ho.
      apply elem_of_cons in Ho as [-> | Ho]; [reflexivity|].
      apply elem_of_cons in Ho as [-> | Ho]; [reflexivity|].
      by apply elem_of_nil in Ho.
Defined.

(** The claim as the spec has it, each writer with the same final
    collection, fails where a writer stores into the slice it is given:
    the second writer of [flipped] receives the nodes in the order the
    first one left them. *)
Lemma Execute_write_phase_shared_slice :
  Execute flipped start =
    (None,
     {| world := [[1; 2]; [2; 1]];
        calls := [ReadCall 0; FilterCall 0 [1; 2];
                  WriteCall 0 [2; 1]; WriteCall 1 [1; 2]] |})
  ∧ ¬ (∃ c : list nat,
         ∀ i a, WriteCall i a ∈ calls (Execute flipped start).2 → a = c).
Proof.
  split; [reflexivity|]. intros [c Hc].
  assert ([2; 1] = c) as H1.
  { apply (Hc 0). vm_compute. do 2 right. left. }
  assert ([1; 2] = c) as H2.
  { apply (Hc 1). vm_compute. do 3 right. left. }
  congruence.
Qed.

End PipelineWitnesses.

(** * Properties of the container filter *)

Section ResolverProperties.
Import filters.

Lemma contains_chars ch s : contains ch s = true ↔ ch ∈ chars s.
Proof.
  unfold chars. induction s as [|c s IH]; simpl.
  - split; [done | by intros ?%elem_of_nil].
  - rewrite orb_true_iff, IH, elem_of_cons, Ascii.eqb_eq.
    split; (intros [? | ?]; [by left | by right]).
Qed.

Lemma before_first_portion sep s : portion_before sep s (before_first sep s).
Proof.
  unfold portion_before, chars. induction s as [|c s [IHn IHs]]; simpl.
  - split; [by intros ?%elem_of_nil | by left].
  - destruct (Ascii.eqb_spec c sep) as [-> | Hne]; simpl.
    + split; [by intros ?%elem_of_nil | right; by exists s].
    + split.
      * rewrite elem_of_cons. intros [? | ?]; [congruence | done].
      * destruct IHs as [IHs | [rest IHs]].
        -- left. f_equal. exact IHs.
        -- right. exists rest.
           change (String c s =
                   String c (before_first sep s +:+ String sep rest)).
           f_equal. exact IHs.
Qed.

Lemma portion_before_unique sep s p :
  portion_before sep s p → p = before_first sep s.
Proof.
  unfold portion_before, chars. revert s.
  induction p as [|c p IH]; intros s [Hn Hs]; simpl in *.
  - destruct Hs as [-> | [rest ->]]; [done|]. simpl.
    by rewrite Ascii.eqb_refl.
  - rewrite elem_of_cons in Hn.
    assert (c ≠ sep) as Hc by (intros ->; apply Hn; by left).
    assert (sep ∉ list_ascii_of_string p) as Hp
      by (intros ?; apply Hn; by right).
    destruct Hs as [-> | [rest ->]]; simpl;
      (destruct (Ascii.eqb_spec c sep); [done|]); f_equal; apply IH;
      (split; [done|]); [by left | right; by exists rest].
Qed.

(** C3. [GetContainerName] is a function of the document alone, defined on
    every document. The container annotation, when present, is returned as
    it is, whatever the apiVersion; without it, the apiVersion is returned
    whole when its portion before the first slash has a dot, and the empty
    string otherwise. *)
Theorem GetContainerName_resolve (n : Document) :
  (∀ v, GetAnnotation ContainerAnnotation n = Some v →
     GetContainerName n = v)
  ∧ (GetAnnotation ContainerAnnotation n = None →
     ∀ p, portion_before "/" (apiVersion n) p →
       ("."%char ∈ chars p → GetContainerName n = apiVersion n)
       ∧ ("."%char ∉ chars p → GetContainerName n = "")).
Proof.
  unfold GetContainerName. split.
  - by intros v ->.
  - intros -> p ->%portion_before_unique. split.
    + intros Hd%contains_chars. by rewrite Hd.
    + intros Hd. destruct (contains _ _) eqn:E; [|done].
      by apply contains_chars in E.
Qed.

Lemma env_flags_lookup (environ rest : list string) : ∀ i pair,
  environ !! i = Some pair →
  (flat_map (fun pair => ["-e"; env_name pair]) environ ++ rest)%list
    !! (2 * i) = Some "-e"
  ∧ (flat_map (fun pair => ["-e"; env_name pair]) environ ++ rest)%list
      !! S (2 * i) = Some (env_name pair).
Proof.
  induction environ as [|e environ' IH]; intros [|i] pair Hi; try done.
  - by injection Hi as ->.
  - replace (2 * S i) with (S (S (2 * i))) by lia. apply (IH i pair Hi).
Qed.

(** C4. Without override arguments the command for [example.com:version]
    is, in any host environment, the runtime followed by the fixed profile,
    one [-e NAME] pair per environment entry in order, and the image; the
    subprocess gets the whole host environment, names and values. *)
Theorem getCommand_no_override (cfg : option Ptr) (environ : list string) :
  let cmd :=
    getCommand {| Image := "example.com:version"; Config := cfg; args := [] |}
      environ in
  Args cmd =
    "docker" ::
      ["run"; "--rm"; "-i"; "-a"; "STDIN"; "-a"; "STDOUT"; "-a"; "STDERR";
       "--network"; "none"; "--user"; "nobody";
       "--security-opt=no-new-privileges"]
      ++ flat_map (fun pair => ["-e"; env_name pair]) environ
      ++ ["example.com:version"]
  ∧ Env cmd = environ
  ∧ (∀ pair, pair ∈ environ → pair ∈ Env cmd)
  ∧ (∀ i pair, environ !! i = Some pair →
       Args cmd !! (15 + 2 * i) = Some "-e"
       ∧ Args cmd !! (16 + 2 * i) = Some (env_name pair))
  ∧ (∀ name value, "="%char ∉ chars name →
       env_name (name +:+ String "=" value) = name).
Proof.
  intros cmd.
  assert (Hpairs : ∀ i pair, environ !! i = Some pair →
            Args cmd !! (15 + 2 * i) = Some "-e"
            ∧ Args cmd !! (16 + 2 * i) = Some (env_name pair)).
  { intros i pair Hi.
    exact (env_flags_lookup environ (["example.com:version"] ++ []) i pair
             Hi). }
  split; [|split; [|split; [|split]]].
  - unfold cmd, getCommand, getArgs, profile. cbn [Args Image args].
    rewrite app_nil_r. reflexivity.
  - done.
  - done.
  - exact Hpairs.
  - intros name value Hn. symmetry. apply portion_before_unique.
    split; [done | right; by exists value].
Qed.

Lemma in_chars (c : ascii) (s : string) :
  bool_decide (c ∈ chars s) = true → c ∈ chars s.
Proof. apply bool_decide_eq_true_1. Defined.

Lemma not_in_chars (c : ascii) (s : string) :
  bool_decide (c ∈ chars s) = false → c ∉ chars s.
Proof. apply bool_decide_eq_false_1. Defined.

(** The cases of [Test_GetContainerName]. *)
Lemma GetContainerName_resolve_witness :
  GetContainerName (mything "gcr.io/foo/bar:something" ∅) =
    "gcr.io/foo/bar:something"
  ∧ GetContainerName (mything "us.gcr.io/foo/bar:something" ∅) =
    "us.gcr.io/foo/bar:something"
  ∧ GetContainerName
      (mything "v1" {[ContainerAnnotation := "gcr.io/foo/bar:something"]}) =
    "gcr.io/foo/bar:something"
  ∧ GetContainerName (mything "v1" ∅) = ""
  ∧ GetContainerName (mything "docker.io/foo/bar:something" ∅) =
    "docker.io/foo/bar:something".
Proof.
  split; [|split; [|split; [|split]]].
  - refine (proj1 (proj2 (GetContainerName_resolve
      (mything "gcr.io/foo/bar:something" ∅)) eq_refl "gcr.io" _) _).
    + split; [by apply not_in_chars | right; by exists "foo/bar:something"].
    + by apply in_chars.
  - refine (proj1 (proj2 (GetContainerName_resolve
      (mything "us.gcr.io/foo/bar:something" ∅)) eq_refl "us.gcr.io" _) _).
    + split; [by apply not_in_chars | right; by exists "foo/bar:something"].
    + by apply in_chars.
  - refine (proj1 (GetContainerName_resolve
      (mything "v1" {[ContainerAnnotation := "gcr.io/foo/bar:something"]}))
      "gcr.io/foo/bar:something" _).
    apply lookup_singleton_eq.
  - refine (proj2 (proj2 (GetContainerName_resolve (mything "v1" ∅))
      eq_refl "v1" _) _).
    + split; [by apply not_in_chars | by left].
    + by apply not_in_chars.
  - refine (proj1 (proj2 (GetContainerName_resolve
      (mything "docker.io/foo/bar:something" ∅)) eq_refl "docker.io" _) _).
    + split; [by apply not_in_chars | right; by exists "foo/bar:something"].
    + by apply in_chars.
Defined.

(** The host environment of [TestFilter_command], after
    [os.Setenv("KYAML_TEST", "FOO")]. *)
Lemma getCommand_no_override_witness :
  let cmd :=
    getCommand {| Image := "example.com:version"; Config := None; args := [] |}
      ["HOME=/root"; "KYAML_TEST=FOO"] in
  "KYAML_TEST=FOO" ∈ Env cmd
  ∧ Args cmd !! 17 = Some "-e"
  ∧ Args cmd !! 18 = Some "KYAML_TEST"
  ∧ Args cmd !! 19 = Some "example.com:version"
  ∧ env_name "KYAML_TEST=FOO" = "KYAML_TEST".
Proof.
  intros cmd.
  pose proof (getCommand_no_override None ["HOME=/root"; "KYAML_TEST=FOO"])
    as (HArgs & HEnv & Hin & Hflags & Hname).
  split; [|split; [|split; [|split]]].
  - apply Hin. right. left.
  - exact (proj1 (Hflags 1 "KYAML_TEST=FOO" eq_refl)).
  - exact (proj2 (Hflags 1 "KYAML_TEST=FOO" eq_refl)).
  - unfold cmd. rewrite HArgs. reflexivity.
  - apply (Hname "KYAML_TEST" "FOO"). by apply not_in_chars.
Defined.

End ResolverProperties.

(** * The wire format is a format-preserving document model *)


(** * The returns of [Execute], and what follows from them *)

Section PipelineOutcomes.
Import kio.
Local Open Scope list_scope.
Local Open Scope nat_scope.
Context {RNode World : Type}.
Implicit Types (p : Pipeline RNode World) (s : State RNode World).
Implicit Types (c : list RNode) (w : World).

Local Abbreviation St w cs := ({| world := w; calls := cs |} : State RNode World).

(** **** Every loop either runs to its end or meets a first stop *)

Lemma reads_or_fails (rs : list (Reader RNode World)) : ∀ w,
  (∃ outs w', reads rs w outs w')
  ∨ (∃ pre r post outs w1 nodes e w2,
       rs = pre ++ r :: post ∧ reads pre w outs w1
       ∧ Read r w1 = ((nodes, Some e), w2)).
Proof.
  induction rs as [|r rs IH]; intros w.
  - left. exists [], w. constructor.
  - destruct (Read r w) as [[nodes [e|]] w1] eqn:Hread.
    + right. exists [], r, rs, [], w, nodes, e, w1.
      repeat split; [constructor | done].
    + destruct (IH w1) as [(outs & w' & Hr)
        | (pre & r' & post & outs & w2 & nodes' & e & w3 & -> & Hr & Hf)].
      * left. exists (nodes :: outs), w'. by econstructor.
      * right. exists (r :: pre), r', post, (nodes :: outs), w2, nodes', e, w3.
        repeat split; [by econstructor | done].
Qed.

Lemma chain_or_stops (ops : list (Filter RNode World)) : ∀ c w,
  (∃ ins c' w', chain ops c w ins c' w')
  ∨ (∃ pre op post ins c1 w1 r err w2,
       ops = pre ++ op :: post ∧ chain pre c w ins c1 w1
       ∧ Filter_ op c1 w1 = ((r, err), w2) ∧ (r = [] ∨ err ≠ None)).
Proof.
  induction ops as [|op ops IH]; intros c w.
  - left. exists [], c, w. constructor.
  - destruct (Filter_ op c w) as [[r err] w1] eqn:Hf.
    destruct (decide (r = [])) as [-> | Hr].
    { right. exists [], op, ops, [], c, w, [], err, w1.
      repeat split; [constructor | done | by left]. }
    destruct err as [e|].
    { right. exists [], op, ops, [], c, w, r, (Some e), w1.
      repeat split; [constructor | done | by right]. }
    destruct (IH r w1) as [(ins & c' & w' & Hc)
      | (pre & op' & post & ins & c1 & w2 & r' & err & w3 & -> & Hc & Hf' & Hs)].
    + left. exists (c :: ins), c', w'. by econstructor.
    + right. exists (op :: pre), op', post, (c :: ins), c1, w2, r', err, w3.
      repeat split; [by econstructor | done | done].
Qed.

Lemma writes_or_fails (os : list (Writer RNode World)) : ∀ c w,
  (∃ args c' w', writes os c w args c' w')
  ∨ (∃ pre o post args c1 w1 e sts w2,
       os = pre ++ o :: post ∧ writes pre c w args c1 w1
       ∧ Write o c1 w1 = ((Some e, sts), w2)).
Proof.
  induction os as [|o os IH]; intros c w.
  - left. exists [], c, w. constructor.
  - destruct (Write o c w) as [[[e|] sts] w1] eqn:Hw.
    + right. exists [], o, os, [], c, w, e, sts, w1.
      repeat split; [constructor | done].
    + destruct (IH (store_all sts c) w1) as [(args & c' & w' & Hws)
        | (pre & o' & post & args & c1 & w2 & e & sts' & w3 & -> & Hws & Hf)].
      * left. exists (c :: args), c', w'. by econstructor.
      * right. exists (o :: pre), o', post, (c :: args), c1, w2, e, sts', w3.
        repeat split; [by econstructor | done].
Qed.

(** The writers never see the slice empty when it was not. *)
Lemma writes_nonempty (os : list (Writer RNode World)) c w args c' w' :
  writes os c w args c' w' →
  c ≠ [] → Forall (fun a => a ≠ []) (args ++ [c']).
Proof.
  intros Hw Hne. destruct (writes_links _ _ _ _ _ _ Hw) as (_ & _ & Hsz & _).
  apply Forall_lookup. intros k a Ha ->.
  apply Hsz in Ha. destruct c; [done | discriminate].
Qed.

Lemma chain_nonempty (ops : list (Filter RNode World)) : ∀ c w ins c' w',
  chain ops c w ins c' w' →
  c ≠ [] → Forall (fun a => a ≠ []) ins ∧ c' ≠ [].
Proof.
  induction ops as [|op ops IH]; intros c w ins c' w' Hc Hne.
  - inversion Hc; subst. by split.
  - inversion Hc as [|? ? ? ? c1 w1 ins' ? ? Hf Hne1 Hrest]; subst.
    destruct (IH _ _ _ _ _ Hrest Hne1) as [Hall Hc'].
    split; [by constructor | done].
Qed.

(** An [outcome] is what [Execute] does. *)
Lemma outcome_sound p w e w' tr :
  outcome p w e w' tr →
  ∀ cs, Execute p (St w cs) = (e, St w' (cs ++ tr)).
Proof.
  intros [pre r post outs w1 nodes e' w2 Hin Hr Hread
         | outs w1 Hr He
         | outs w1 pre op post ins c w2 r err w3 Hr Hne Hfs Hc Hop Hstop
         | outs w1 ins c w2 pre o post args c3 w3 e' sts w4
             Hr Hne Hc Hout Hw Hwr
         | outs w1 ins c w2 args c3 w3 Hr Hne Hc Hw] cs.
  - unfold Execute. rewrite Hin.
    rewrite (read_loop_reads _ 0 [] w cs outs w1 Hr). simpl.
    unfold call_Read at 1. simpl. rewrite Hread. simpl.
    do 2 f_equal. rewrite <- app_assoc. f_equal.
    unfold read_calls. by rewrite seq_S, fmap_app.
  - unfold Execute.
    pose proof (read_loop_reads _ 0 [] w cs outs w1 Hr []) as E.
    rewrite app_nil_r in E. rewrite E. simpl. by rewrite He.
  - destruct (chain_links _ _ _ _ _ _ Hc) as (Hlen & _ & _).
    rewrite (Execute_after_reads p (St w cs) outs w1 Hr Hne), Hfs.
    rewrite (filter_loop_chain _ 0 _ _ _ _ _ _ Hc). simpl.
    unfold call_Filter at 1. simpl. rewrite Hop.
    assert (Nat.eqb (length r) 0 || bool_decide (err ≠ None) = true) as ->.
    { destruct Hstop as [-> | He]; [done|].
      rewrite (bool_decide_eq_true_2 _ He). apply orb_true_r. }
    do 2 f_equal. unfold filter_calls.
    rewrite imap_app. simpl. rewrite <- !app_assoc.
    by rewrite Nat.add_0_r, Hlen.
  - destruct (Execute_after_filters p (St w cs) outs w1 ins c w2 Hr Hne Hc)
      as (_ & Hex).
    destruct (writes_links _ _ _ _ _ _ Hw) as (Hlen & _).
    rewrite Hex, Hout. simpl.
    rewrite (write_loop_writes _ 0 _ _ _ _ _ _ Hw). simpl.
    unfold call_Write at 1. simpl. rewrite Hwr. simpl.
    do 2 f_equal. rewrite <- !app_assoc. do 3 f_equal.
    unfold write_calls. rewrite imap_app. simpl.
    by rewrite Nat.add_0_r, Hlen.
  - destruct (Execute_after_filters p (St w cs) outs w1 ins c w2 Hr Hne Hc)
      as (_ & Hex).
    rewrite Hex. simpl.
    pose proof (write_loop_writes _ 0 c w2
      ((cs ++ read_calls 0 (length (Inputs p))) ++ filter_calls 0 ins)
      args c3 w3 Hw []) as E.
    rewrite app_nil_r in E. rewrite E. simpl.
    by rewrite <- !app_assoc.
Qed.

(** Every pipeline, from every world, has an outcome. *)
Lemma outcome_total p w : ∃ e w' tr, outcome p w e w' tr.
Proof.
  destruct (reads_or_fails (Inputs p) w) as [(outs & w1 & Hr)
    | (pre & r & post & outs & w1 & nodes & e & w2 & Hin & Hr & Hread)].
  2: { exists (Some e), w2, (read_calls 0 (S (length pre))).
       by eapply read_failed. }
  destruct (decide (concat outs = [])) as [He | Hne].
  { eexists _, _, _. by eapply nothing_read. }
  destruct (chain_or_stops (Filters p) (concat outs) w1)
    as [(ins & c & w2 & Hc)
       | (pre & op & post & ins & c & w2 & r & err & w3 & Hfs & Hc & Hop & Hs)].
  2: { eexists _, _, _. by eapply filter_stopped. }
  destruct (writes_or_fails (Outputs p) c w2) as [(args & c3 & w3 & Hw)
    | (pre & o & post & args & c3 & w3 & e & sts & w4 & Hout & Hw & Hwr)].
  - eexists _, _, _. by eapply completed.
  - eexists _, _, _. by eapply write_failed.
Qed.

Lemma outcome_of_Execute p w cs e w' tr :
  Execute p (St w cs) = (e, St w' (cs ++ tr)) → outcome p w e w' tr.
Proof.
  intros Hex. destruct (outcome_total p w) as (e0 & w0 & tr0 & Ho).
  rewrite (outcome_sound _ _ _ _ _ Ho cs) in Hex.
  injection Hex as -> -> Htr. apply app_inv_head in Htr. by subst.
Qed.

(** The calls of an outcome, phase by phase. *)
Lemma outcome_phases p w e w' tr :
  outcome p w e w' tr →
  ∃ nr ins args,
    tr = read_calls 0 nr ++ filter_calls 0 ins ++ write_calls 0 args
    ∧ nr ≤ length (Inputs p)
    ∧ length ins ≤ length (Filters p)
    ∧ length args ≤ length (Outputs p)
    ∧ (ins ≠ [] → nr = length (Inputs p))
    ∧ (args ≠ [] → nr = length (Inputs p) ∧ length ins = length (Filters p))
    ∧ Forall (fun a => a ≠ []) ins
    ∧ Forall (fun a => a ≠ []) args
    ∧ (e = None → args = [] ∨ length args = length (Outputs p)).
Proof.
  intros [pre r post outs w1 nodes e' w2 Hin Hr Hread
         | outs w1 Hr He
         | outs w1 pre op post ins c w2 r err w3 Hr Hne Hfs Hc Hop Hstop
         | outs w1 ins c w2 pre o post args c3 w3 e' sts w4
             Hr Hne Hc Hout Hw Hwr
         | outs w1 ins c w2 args c3 w3 Hr Hne Hc Hw].
  - exists (S (length pre)), [], []. rewrite Hin, length_app. simpl.
    rewrite app_nil_r. repeat split; (done || lia || auto).
  - exists (length (Inputs p)), [], []. simpl.
    rewrite app_nil_r. repeat split; (done || lia || auto).
  - destruct (chain_links _ _ _ _ _ _ Hc) as (Hlen & _ & _).
    destruct (chain_nonempty _ _ _ _ _ _ Hc Hne) as [Hall Hc'].
    exists (length (Inputs p)), (ins ++ [c]), []. simpl.
    rewrite app_nil_r, Hfs, !length_app, Hlen. simpl.
    repeat split; try (done || lia || auto).
    apply Forall_app. split; [done | by constructor].
  - destruct (chain_links _ _ _ _ _ _ Hc) as (Hlen & _ & _).
    destruct (chain_nonempty _ _ _ _ _ _ Hc Hne) as [Hall Hc'].
    destruct (writes_links _ _ _ _ _ _ Hw) as (Hlenw & _).
    pose proof (writes_nonempty _ _ _ _ _ _ Hw Hc') as Hargs.
    exists (length (Inputs p)), ins, (args ++ [c3]).
    rewrite Hout, !length_app, Hlen, Hlenw. simpl.
    repeat split; (done || lia || auto).
  - destruct (chain_links _ _ _ _ _ _ Hc) as (Hlen & _ & _).
    destruct (chain_nonempty _ _ _ _ _ _ Hc Hne) as [Hall Hc'].
    destruct (writes_links _ _ _ _ _ _ Hw) as (Hlenw & _).
    pose proof (writes_nonempty _ _ _ _ _ _ Hw Hc') as Hargs.
    apply Forall_app in Hargs as [Hargs _].
    exists (length (Inputs p)), ins, args.
    rewrite Hlen, Hlenw. repeat split; (done || lia || auto).
Qed.

Lemma write_calls_index from (args : list (list RNode)) x :
  x ∈ write_calls from args →
  ∃ k a, x = WriteCall (from + k) a ∧ args !! k = Some a.
Proof.
  unfold write_calls. rewrite list_elem_of_lookup.
  intros [k Hk]. rewrite list_lookup_imap in Hk.
  destruct (args !! k) as [a|] eqn:E; [|done].
  injection Hk as <-. eauto.
Qed.

#[local] Instance callee_read_inj : Inj (=) (=) (callee ∘ @ReadCall RNode).
Proof. intros i j H. by injection H. Qed.

Lemma phases_NoDup nr (ins args : list (list RNode)) :
  NoDup (callee <$>
    read_calls 0 nr ++ filter_calls 0 ins ++ write_calls 0 args).
Proof.
  rewrite !fmap_app. apply NoDup_app. split; [|split].
  - unfold read_calls. rewrite <- list_fmap_compose.
    apply NoDup_fmap_2; [apply _ | apply NoDup_seq].
  - intros x Hx Hx'.
    apply list_elem_of_fmap in Hx as (y & -> & Hy).
    apply list_elem_of_fmap in Hy as (i & -> & _).
    apply elem_of_app in Hx' as [Hx' | Hx'];
      apply list_elem_of_fmap in Hx' as (y & E & Hy).
    + apply filter_calls_index in Hy as (k & a & -> & _). discriminate.
    + apply write_calls_index in Hy as (k & a & -> & _). discriminate.
  - apply NoDup_app. split; [|split].
    + apply NoDup_alt. intros i j x Hi Hj.
      unfold filter_calls in *.
      rewrite list_lookup_fmap, list_lookup_imap in Hi, Hj.
      destruct (ins !! i); [|done]. destruct (ins !! j); [|done].
      simpl in *. injection Hi as <-. by injection Hj.
    + intros x Hx Hx'.
      apply list_elem_of_fmap in Hx as (y & -> & Hy).
      apply filter_calls_index in Hy as (k & a & -> & _).
      apply list_elem_of_fmap in Hx' as (y & E & Hy).
      apply write_calls_index in Hy as (j & b & -> & _). discriminate.
    + apply NoDup_alt. intros i j x Hi Hj.
      unfold write_calls in *.
      rewrite list_lookup_fmap, list_lookup_imap in Hi, Hj.
      destruct (args !! i); [|done]. destruct (args !! j); [|done].
      simpl in *. injection Hi as <-. by injection Hj.
Qed.

(** X1. [Execute] returns in exactly one of five ways, and always in one
    of them: an input failed and its error is returned; every input was
    read and nothing came out, and nil is returned; a filter returned an
    empty collection or an error, and its error (nil included) is
    returned; an output failed and its error is returned; or every input,
    filter and output succeeded and nil is returned. The returned error,
    the world left behind and the calls made are those of that way and of
    no other. *)
Theorem Execute_outcome p w cs :
  (∃ e w' tr, Execute p (St w cs) = (e, St w' (cs ++ tr)))
  ∧ ∀ e w' tr,
      Execute p (St w cs) = (e, St w' (cs ++ tr)) ↔ outcome p w e w' tr.
Proof.
  split.
  - destruct (outcome_total p w) as (e & w' & tr & Ho).
    exists e, w', tr. by apply outcome_sound.
  - intros e w' tr. split.
    + apply outcome_of_Execute.
    + intros Ho. by apply outcome_sound.
Qed.

(** X2. Whatever the inputs, filters and outputs do, the calls [Execute]
    makes come in three blocks in this order: inputs 0, 1, ... in source
    order, then filters 0, 1, ... in source order, then outputs 0, 1, ...
    in source order. No filter is called before every input was read, and
    no output is called before every input was read and every filter was
    applied. *)
Theorem Execute_three_phases p s :
  ∃ nr ins args,
    calls (Execute p s).2 =
      calls s ++ read_calls 0 nr ++ filter_calls 0 ins ++ write_calls 0 args
    ∧ nr ≤ length (Inputs p)
    ∧ length ins ≤ length (Filters p)
    ∧ length args ≤ length (Outputs p)
    ∧ (ins ≠ [] → nr = length (Inputs p))
    ∧ (args ≠ [] → nr = length (Inputs p) ∧ length ins = length (Filters p)).
Proof.
  destruct s as [w cs].
  destruct (outcome_total p w) as (e & w' & tr & Ho).
  rewrite (outcome_sound _ _ _ _ _ Ho cs).
  destruct (outcome_phases _ _ _ _ _ Ho)
    as (nr & ins & args & -> & H1 & H2 & H3 & H4 & H5 & _).
  by exists nr, ins, args.
Qed.

(** X3. [Execute] never hands an empty collection to a filter or to an
    output: every filter and every output it calls receives at least one
    node. *)
Theorem Execute_never_passes_empty p s :
  ∃ tr,
    calls (Execute p s).2 = calls s ++ tr
    ∧ ∀ x a, x ∈ tr → call_arg x = Some a → a ≠ [].
Proof.
  destruct s as [w cs].
  destruct (outcome_total p w) as (e & w' & tr & Ho).
  rewrite (outcome_sound _ _ _ _ _ Ho cs).
  exists tr. split; [done|].
  destruct (outcome_phases _ _ _ _ _ Ho)
    as (nr & ins & args & -> & _ & _ & _ & _ & _ & Hall & Hargs & _).
  intros x a Hx Ha.
  apply elem_of_app in Hx as [Hx | Hx].
  { unfold read_calls in Hx.
    apply list_elem_of_fmap in Hx as (i & -> & _). discriminate. }
  apply elem_of_app in Hx as [Hx | Hx].
  - apply filter_calls_index in Hx as (k & a' & -> & Hk).
    injection Ha as <-.
    by apply (proj1 (Forall_lookup _ _) Hall k).
  - apply write_calls_index in Hx as (k & a' & -> & Hk).
    injection Ha as <-.
    by apply (proj1 (Forall_lookup _ _) Hargs k).
Qed.

(** X4. [Execute] invents no error: an error it returns is the error that
    an input of the pipeline returned from [Read], or that a filter of the
    pipeline returned from [Filter] on a non-empty collection, or that an
    output of the pipeline returned from [Write] on a non-empty
    collection. *)
Theorem Execute_error_origin p s e :
  (Execute p s).1 = Some e →
  (∃ r w1 nodes w2, r ∈ Inputs p ∧ Read r w1 = ((nodes, Some e), w2))
  ∨ (∃ op c w1 r w2,
       op ∈ Filters p ∧ c ≠ [] ∧ Filter_ op c w1 = ((r, Some e), w2))
  ∨ (∃ o c w1 sts w2,
       o ∈ Outputs p ∧ c ≠ [] ∧ Write o c w1 = ((Some e, sts), w2)).
Proof.
  destruct s as [w cs].
  destruct (outcome_total p w) as (e0 & w' & tr & Ho).
  rewrite (outcome_sound _ _ _ _ _ Ho cs). simpl. intros ->.
  inversion Ho as [pre r post outs w1 nodes e' w2 Hin Hr Hread
         | outs w1 Hr He
         | outs w1 pre op post ins c w2 r err w3 Hr Hne Hfs Hc Hop Hstop
         | outs w1 ins c w2 pre o post args c3 w3 e' sts w4
             Hr Hne Hc Hout Hw Hwr
         | outs w1 ins c w2 args c3 w3 Hr Hne Hc Hw]; subst.
  - left. exists r, w1, nodes, w'. split; [|done].
    rewrite Hin. apply elem_of_app. right. by left.
  - right. left. exists op, c, w2, r, w'.
    destruct (chain_nonempty _ _ _ _ _ _ Hc Hne) as [_ Hc'].
    split; [|done]. rewrite Hfs. apply elem_of_app. right. by left.
  - right. right. exists o, c3, w3, sts, w'.
    destruct (chain_nonempty _ _ _ _ _ _ Hc Hne) as [_ Hc'].
    pose proof (writes_nonempty _ _ _ _ _ _ Hw Hc') as Hargs.
    apply Forall_app in Hargs as [_ Hc3]. inversion Hc3; subst.
    split; [|done]. rewrite Hout. apply elem_of_app. right. by left.
Qed.

(** X5. When [Execute] returns nil, the outputs are written all or none:
    either no output was called at all, or every output of the pipeline
    was called, once each in source order, after all the other calls, and
    none of them with an empty collection. *)
Theorem Execute_nil_all_or_nothing p w cs w' tr :
  Execute p (St w cs) = (None, St w' (cs ++ tr)) →
  Forall (fun x => is_write x = false) tr
  ∨ ∃ pre args,
      tr = pre ++ write_calls 0 args
      ∧ Forall (fun x => is_write x = false) pre
      ∧ length args = length (Outputs p)
      ∧ Forall (fun a => a ≠ []) args.
Proof.
  intros Hex. apply outcome_of_Execute in Hex.
  destruct (outcome_phases _ _ _ _ _ Hex)
    as (nr & ins & args & -> & _ & _ & _ & _ & _ & _ & Hargs & Hnw).
  assert (Forall (fun x : Call RNode => is_write x = false)
            (read_calls 0 nr ++ filter_calls 0 ins)) as Hpre.
  { apply Forall_forall. intros x Hx.
    apply elem_of_app in Hx as [Hx | Hx].
    - unfold read_calls in Hx.
      by apply list_elem_of_fmap in Hx as (i & -> & _).
    - by apply filter_calls_index in Hx as (k & a & -> & _). }
  destruct (Hnw eq_refl) as [-> | Hlen].
  - left. simpl. by rewrite app_nil_r.
  - right. exists (read_calls 0 nr ++ filter_calls 0 ins), args.
    split; [by rewrite <- app_assoc | done].
Qed.

(** X6. [Execute] calls every input, every filter and every output of the
    pipeline at most once. *)
Theorem Execute_calls_once p s :
  ∃ tr,
    calls (Execute p s).2 = calls s ++ tr ∧ NoDup (callee <$> tr).
Proof.
  destruct s as [w cs].
  destruct (outcome_total p w) as (e & w' & tr & Ho).
  rewrite (outcome_sound _ _ _ _ _ Ho cs).
  exists tr. split; [done|].
  destruct (outcome_phases _ _ _ _ _ Ho) as (nr & ins & args & -> & _).
  apply phases_NoDup.
Qed.

End PipelineOutcomes.

(** * Pipelines put together and taken apart *)

Section PipelineComposition.
Import kio.
Local Open Scope list_scope.
Local Open Scope nat_scope.
Context {RNode World : Type}.
Implicit Types (p q : Pipeline RNode World) (s : State RNode World).
Implicit Types (c : list RNode) (w : World).

Local Abbreviation St w cs := ({| world := w; calls := cs |} : State RNode World).

Lemma Execute_unfold p s :
  Execute p s =
  match read_loop (Inputs p) 0 [] s with
  | (Return err, s) => (err, s)
  | (Next result, s) =>
      if Nat.eqb (length result) 0 then (None, s)
      else after_filters (Outputs p) (filter_loop (Filters p) 0 result s)
  end.
Proof.
  unfold Execute, after_filters, after_writes.
  destruct (read_loop _ _ _ _) as [[err|result] s1]; [done|].
  destruct (Nat.eqb _ _); [done|].
  destruct (filter_loop _ _ _ _) as [[err|result'] s2]; [done|].
  by destruct (write_loop _ _ _ _) as [[?|?] ?].
Qed.

(** The record of calls and the indices have no part in what a loop
    returns or in what it does to the world. *)
Lemma filter_loop_observed ops : ∀ idx idx' c w cs cs',
  observed (filter_loop ops idx c (St w cs)) =
  observed (filter_loop ops idx' c (St w cs')).
Proof.
  induction ops as [|op ops IH]; intros idx idx' c w cs cs'; [done|].
  simpl. unfold call_Filter. simpl.
  destruct (Filter_ op c w) as [[r err] w1].
  destruct (_ || _); [done | apply IH].
Qed.

Lemma write_loop_observed os : ∀ idx idx' c w cs cs',
  observed (write_loop os idx c (St w cs)) =
  observed (write_loop os idx' c (St w cs')).
Proof.
  induction os as [|o os IH]; intros idx idx' c w cs cs'; [done|].
  simpl. unfold call_Write. simpl.
  destruct (Write o c w) as [[[e|] sts] w1]; [done | apply IH].
Qed.

Lemma after_filters_observed outs
    (r1 r2 : Flow (list RNode) * State RNode World) :
  observed r1 = observed r2 →
  observed (after_filters outs r1) = observed (after_filters outs r2).
Proof.
  destruct r1 as [[e1|c1] [w1 cs1]], r2 as [[e2|c2] [w2 cs2]];
    unfold observed; simpl; intros [= ]; subst; try done.
  pose proof (write_loop_observed outs 0 0 c2 w2 cs1 cs2) as H.
  destruct (write_loop outs 0 c2 (St w2 cs1)) as [[?|?] [? ?]],
           (write_loop outs 0 c2 (St w2 cs2)) as [[?|?] [? ?]];
    unfold observed in H; simpl in *; by simplify_eq.
Qed.

(** The filter loop over two lists of filters is the loop over the first
    and then, unless it returned, the loop over the second. *)
Lemma filter_loop_app ops1 ops2 : ∀ idx c s,
  filter_loop (ops1 ++ ops2) idx c s =
  match filter_loop ops1 idx c s with
  | (Return err, s') => (Return err, s')
  | (Next c', s') => filter_loop ops2 (idx + length ops1) c' s'
  end.
Proof.
  induction ops1 as [|op ops1 IH]; intros idx c s; simpl.
  - by rewrite Nat.add_0_r.
  - destruct (call_Filter idx op c s) as [[r err] s1].
    destruct (_ || _); [done|].
    rewrite IH. by replace (S idx + length ops1) with (idx + S (length ops1)) by lia.
Qed.

Lemma filter_loop_nonempty ops : ∀ idx c s c' s',
  c ≠ [] → filter_loop ops idx c s = (Next c', s') → c' ≠ [].
Proof.
  induction ops as [|op ops IH]; intros idx c s c' s' Hne; simpl.
  - by intros [= <- _].
  - destruct (call_Filter idx op c s) as [[r err] s1].
    destruct (Nat.eqb (length r) 0) eqn:E; simpl; [done|].
    destruct (bool_decide _); [done|].
    apply IH. intros ->. by simpl in E.
Qed.

Lemma read_loop_slices (os : list (list RNode)) : ∀ idx acc w cs,
  read_loop (ResourceNodeSlice_Reader <$> os) idx acc (St w cs) =
  (Next (acc ++ concat os), St w (cs ++ read_calls idx (length os))).
Proof.
  induction os as [|o os IH]; intros idx acc w cs; simpl.
  - by rewrite !app_nil_r.
  - rewrite IH. by rewrite <- !app_assoc.
Qed.

(** X7. A pipeline whose inputs are all [ResourceNodeSlice]s cannot fail
    while reading and reads without touching the world: [Execute] returns
    nil at once when the slices hold no node at all, and otherwise goes on
    to the filters, from the world it was started in, with the slices'
    nodes joined in source order. *)
Theorem Execute_slice_inputs p (os : list (list RNode)) w cs :
  Inputs p = ResourceNodeSlice_Reader <$> os →
  Execute p (St w cs) =
  if Nat.eqb (length (concat os)) 0
  then (None, St w (cs ++ read_calls 0 (length os)))
  else after_filters (Outputs p)
         (filter_loop (Filters p) 0 (concat os)
            (St w (cs ++ read_calls 0 (length os)))).
Proof.
  intros Hin. rewrite Execute_unfold, Hin, read_loop_slices. done.
Qed.


(** X9. A filter that hands its input back unchanged can be put anywhere
    among the filters of a pipeline, or taken out, without a change in
    what [Execute] returns or in the world it leaves. *)
Theorem Execute_pass_through p q pre post s :
  Inputs q = Inputs p →
  Outputs q = Outputs p →
  Filters p = pre ++ post →
  Filters q = pre ++ pass_through :: post →
  observed (Execute q s) = observed (Execute p s).
Proof.
  intros Hin Hout Hp Hq.
  rewrite !Execute_unfold, Hin, Hout, Hp, Hq.
  destruct (read_loop _ _ _ _) as [[err|result] s1]; [done|].
  destruct (Nat.eqb _ _) eqn:E; [done|].
  apply after_filters_observed.
  rewrite !filter_loop_app.
  destruct (filter_loop pre 0 result s1) as [[err|c] [w2 cs2]] eqn:Hpre;
    [done|].
  assert (c ≠ []) as Hc.
  { refine (filter_loop_nonempty _ _ _ _ _ _ _ Hpre).
    intros ->. by simpl in E. }
  cbn [filter_loop]. unfold call_Filter, pass_through. cbn.
  rewrite length_eqb_nonempty by done. cbn [orb].
  apply filter_loop_observed.
Qed.

End PipelineComposition.

Section PipelineOutcomeWitnesses.
Import kio samples.
Local Open Scope list_scope.

Lemma Execute_error_origin_witness :
  (∃ r w1 nodes w2,
     r ∈ Inputs read_fails ∧ Read r w1 = ((nodes, Some "read failed"), w2))
  ∨ (∃ op c w1 r w2,
       op ∈ Filters read_fails ∧ c ≠ []
       ∧ Filter_ op c w1 = ((r, Some "read failed"), w2))
  ∨ (∃ o c w1 sts w2,
       o ∈ Outputs read_fails ∧ c ≠ []
       ∧ Write o c w1 = ((Some "read failed", sts), w2)).
Proof.
  exact (Execute_error_origin read_fails start "read failed" eq_refl).
Defined.

Lemma Execute_nil_all_or_nothing_witness :
  Forall (fun x => is_write x = false)
    [ReadCall 0; FilterCall 0 [1; 2]; WriteCall 0 [2; 1]; WriteCall 1 [1; 2]]
  ∨ ∃ pre args,
      [ReadCall 0; FilterCall 0 [1; 2]; WriteCall 0 [2; 1]; WriteCall 1 [1; 2]]
      = pre ++ write_calls 0 args
      ∧ Forall (fun x => is_write x = false) pre
      ∧ length args = length (Outputs flipped)
      ∧ Forall (fun a => a ≠ []) args.
Proof.
  exact (Execute_nil_all_or_nothing flipped [] [] [[1; 2]; [2; 1]]
    [ReadCall 0; FilterCall 0 [1; 2]; WriteCall 0 [2; 1]; WriteCall 1 [1; 2]]
    eq_refl).
Defined.

Lemma Execute_slice_inputs_witness :
  Execute copy_all start =
  after_filters (Outputs copy_all)
    (filter_loop (Filters copy_all) 0 [1; 2; 3]
       {| world := []; calls := [ReadCall 0; ReadCall 1] |}).
Proof.
  exact (Execute_slice_inputs copy_all [[1; 2]; [3]] [] [] eq_refl).
Defined.


Lemma Execute_pass_through_witness :
  observed (Execute with_pass_through start) =
  observed (Execute two_filters start).
Proof.
  exact (Execute_pass_through two_filters with_pass_through
    [reverse] [behead] start eq_refl eq_refl eq_refl eq_refl).
Defined.

End PipelineOutcomeWitnesses.
